(** * A GraphQL operation compiler, verified

    The Go package compiles a response shape (a [reflect.Type]) into a
    minified GraphQL selection set and a variables map into a minified
    list of variable declarations, and assembles both into the document
    of a query or of a mutation.

    The package exists in two variants: one whose operations carry a
    [Name] (methods [Query.Query] and [Mutation.Query]) and one without
    names (functions [constructQuery] and [constructMutation]).  Both
    declare [queryArguments], [writeArgumentType], [query] and
    [writeQuery] with the same bodies, so these are embedded once.

    A function that writes to an [io.Writer] is embedded as the string
    it appends, by recursion on the type description; module [Steps]
    transcribes the same functions with the buffer passed along, on the
    accessors of [reflect.Type] and with a bound on the depth of the
    recursion, and the two are proved to agree.  A panic (the nil type
    of a nil interface, an accessor on the wrong kind) is [None]. *)

From Stdlib Require Import Strings.Ascii.
From stdpp Require Import base option list sorting gmap strings.

#[local] Set Warnings "-register-all".

(** ** The part of Go's [reflect] package that the compilers read *)

Module reflect.

(** Kinds that neither compiler tells apart. *)
Inductive OtherKind : Set :=
| Bool | Int | Int8 | Int16 | Int32 | Int64
| Uint | Uint8 | Uint16 | Uint32 | Uint64 | Uintptr
| Float32 | Float64 | Complex64 | Complex128
| Chan | Func | Interface | Map | String | UnsafePointer.

Inductive Kind : Set :=
| Array | Ptr | Slice | Struct | Other (k : OtherKind).

(** [reflect.StructField].  [Tag] is the result of
    [f.Tag.Lookup("graphql")]: [Some value] when the key is present. *)
Record StructField (T : Type) : Type := mkStructField {
  Name : string;
  Anonymous : bool;
  Tag : option string;
  Typ : T
}.
Global Arguments mkStructField {T} _ _ _ _.
Global Arguments Name {T} _.
Global Arguments Anonymous {T} _.
Global Arguments Tag {T} _.
Global Arguments Typ {T} _.

(** A type description: a finite tree.  A recursive Go type
    ([type node struct{Next *node}], [type L []L]) has no finite
    description and no value here: on such a type the compilers recurse
    without end, and every statement below is about the types that have
    one.  Of a pointer, slice or array
    type the compilers read the element type only.  [unmarshaler]
    records whether the pointer to the struct type implements
    [json.Unmarshaler]; the code asks this of struct types only. *)
Inductive rtype : Type :=
| TOther (k : OtherKind) (name : string)
| TPtr (elem : rtype)
| TSlice (elem : rtype)
| TArray (elem : rtype)
| TStruct (name : string) (unmarshaler : bool)
          (fields : list (StructField rtype)).

Definition kind (t : rtype) : Kind :=
  match t with
  | TOther k _ => Other k
  | TPtr _ => Ptr
  | TSlice _ => Slice
  | TArray _ => Array
  | TStruct _ _ _ => Struct
  end.

(** [t.Name()], asked of named (non-pointer, non-list) types. *)
Definition name (t : rtype) : string :=
  match t with
  | TOther _ n | TStruct n _ _ => n
  | _ => ""
  end.

(** [t.Elem()] panics unless the type has an element type. *)
Definition elem (t : rtype) : option rtype :=
  match t with
  | TPtr e | TSlice e | TArray e => Some e
  | _ => None
  end.

(** [t.NumField()] and [t.Field(i)] panic on types that are no struct
    and on an index out of range. *)
Definition fields (t : rtype) : option (list (StructField rtype)) :=
  match t with
  | TStruct _ _ fs => Some fs
  | _ => None
  end.

Definition numField (t : rtype) : option nat := length <$> fields t.

Definition field (t : rtype) (i : nat) : option (StructField rtype) :=
  fs ← fields t; fs !! i.

(** [reflect.PtrTo(t).Implements(jsonUnmarshaler)]. *)
Definition ptrImplementsUnmarshaler (t : rtype) : bool :=
  match t with
  | TStruct _ u _ => u
  | _ => false
  end.

(** Nesting height of a type description. *)
Fixpoint height (t : rtype) : nat :=
  match t with
  | TOther _ _ => 0
  | TPtr e | TSlice e | TArray e => S (height e)
  | TStruct _ _ fs =>
      S ((fix go (fs : list (StructField rtype)) : nat :=
            match fs with
            | [] => 0
            | f :: fs' => height (Typ f) `max` go fs'
            end) fs)
  end.

Definition fields_height (fs : list (StructField rtype)) : nat :=
  (fix go (fs : list (StructField rtype)) : nat :=
     match fs with
     | [] => 0
     | f :: fs' => height (Typ f) `max` go fs'
     end) fs.

(** An [interface{}] value: nil, or a value [v] boxed with its dynamic
    type.  The compilers only take [reflect.TypeOf] of it. *)
Inductive iface (V : Type) : Type :=
| inil
| ival (t : rtype) (v : V).
Global Arguments inil {V}.
Global Arguments ival {V} _ _.

Definition TypeOf {V : Type} (i : iface V) : option rtype :=
  match i with
  | inil => None
  | ival t _ => Some t
  end.

Global Instance iface_inhabited {V : Type} : Inhabited (iface V) :=
  populate inil.

End reflect.

Import reflect(rtype, TOther, TPtr, TSlice, TArray, TStruct,
               StructField, mkStructField, iface, inil, ival).

(** ** The naming normalizer

    [ident.ParseMixedCaps(name).ToLowerCamelCase()] lives in a package
    [ident] that each variant imports; the compilers are embedded over
    any such function. *)

Class NamingNormalizer := toLowerCamelCase : string → string.

(** ** Type-name resolver *)

Fixpoint writeArgumentType (t : rtype) (value : bool) : string :=
  match t with
  | TPtr e => writeArgumentType e false
  | _ =>
      match t with
      | TSlice e | TArray e => "[" +:+ writeArgumentType e true +:+ "]"
      | _ =>
          let name := reflect.name t in
          let name := if decide (name = "string") then "ID" else name in
          name
      end +:+ (if value then "!" else "")
  end.

(** ** Argument compiler *)

(** [sort.Strings]: ascending in the byte-wise order of Go's [<] on
    strings. *)
Definition sort_Strings (keys : list string) : list string :=
  merge_sort String.le keys.

(** The loop over the sorted keys.  [variables[k]] is the zero value,
    the nil interface, for a key that is not in the map; [t.Kind()] on
    the nil type of a nil interface panics ([None]). *)
Fixpoint writeArguments {V : Type} (variables : gmap string (iface V))
    (keys : list string) : option string :=
  match keys with
  | [] => Some ""
  | k :: keys' =>
      t ← reflect.TypeOf (variables !!! k);
      rest ← writeArguments variables keys';
      Some ("$" +:+ k +:+ ":" +:+ writeArgumentType t true +:+ rest)
  end.

(** The declaration that the loop writes for key [k]. *)
Definition declaration {V : Type} (variables : gmap string (iface V))
    (k : string) : option string :=
  t ← reflect.TypeOf (variables !!! k);
  Some ("$" +:+ k +:+ ":" +:+ writeArgumentType t true).

(** [range_keys variables keys]: [keys] is an order in which
    [for k := range variables] may yield the keys of the map. *)
Definition range_keys {V : Type} (variables : gmap string (iface V))
    (keys : list string) : Prop :=
  keys ≡ₚ (map_to_list variables).*1.

(** [queryArguments] when the range loop yields [keys]. *)
Definition queryArguments_from {V : Type} (keys : list string)
    (variables : gmap string (iface V)) : option string :=
  writeArguments variables (sort_Strings keys).

Definition queryArguments {V : Type} (variables : gmap string (iface V))
    : option string :=
  queryArguments_from (map_to_list variables).*1 variables.

(** ** Selection compiler *)

Definition inlineField (f : StructField rtype) : bool :=
  reflect.Anonymous f && negb (bool_decide (is_Some (reflect.Tag f))).

(** The name token of a field that is not inlined. *)
Definition fieldName `{NamingNormalizer} (f : StructField rtype) : string :=
  match reflect.Tag f with
  | Some value => value
  | None => toLowerCamelCase (reflect.Name f)
  end.

Fixpoint writeQuery `{NamingNormalizer} (t : rtype) (inline : bool) : string :=
  match t with
  | TPtr e | TSlice e => writeQuery e false
  | TStruct _ unmarshaler fields =>
      if unmarshaler then ""
      else
        (if inline then "" else "{") +:+
        (fix loop (i : nat) (fs : list (StructField rtype)) : string :=
           match fs with
           | [] => ""
           | f :: fs' =>
               (if decide (i ≠ 0) then "," else "") +:+
               (if inlineField f then "" else fieldName f) +:+
               writeQuery (reflect.Typ f) (inlineField f) +:+
               loop (S i) fs'
           end) 0 fields +:+
        (if inline then "" else "}")
  | _ => ""
  end.

(** What one iteration of the loop writes for field [f] after the
    separator. *)
Definition writeField `{NamingNormalizer} (f : StructField rtype) : string :=
  (if inlineField f then "" else fieldName f) +:+
  writeQuery (reflect.Typ f) (inlineField f).

(** The loop of [writeQuery] from index [i] on. *)
Fixpoint writeFields `{NamingNormalizer} (i : nat)
    (fs : list (StructField rtype)) : string :=
  match fs with
  | [] => ""
  | f :: fs' =>
      (if decide (i ≠ 0) then "," else "") +:+ writeField f +:+
      writeFields (S i) fs'
  end.

Definition query `{NamingNormalizer} {V : Type} (v : iface V) : option string :=
  t ← reflect.TypeOf v; Some (writeQuery t false).

(** ** Operation assembly *)

(** The variant with operation names.  [str] is the [strings.Builder]. *)
Module Query.
Record t (V : Type) : Type := mk {
  Name : string;
  Data : iface V;
  Vars : gmap string (iface V)
}.
Global Arguments mk {V} _ _ _.
Global Arguments Name {V} _.
Global Arguments Data {V} _.
Global Arguments Vars {V} _.

Definition Query `{NamingNormalizer} {V : Type} (op : t V) : option string :=
  let str := "" in
  let str :=
    if decide (Name op ≠ "") then (str +:+ "query ") +:+ Name op else str in
  str ← (if decide (0 < size (Vars op)) then
           let str :=
             if decide (String.length str = 0) then str +:+ "query"
             else str in
           let str := str +:+ "(" in
           args ← queryArguments (Vars op);
           Some ((str +:+ args) +:+ ")")
         else Some str);
  sel ← query (Data op);
  Some (str +:+ sel).
End Query.

Module Mutation.
Record t (V : Type) : Type := mk {
  Name : string;
  Data : iface V;
  Vars : gmap string (iface V)
}.
Global Arguments mk {V} _ _ _.
Global Arguments Name {V} _.
Global Arguments Data {V} _.
Global Arguments Vars {V} _.

Definition Query `{NamingNormalizer} {V : Type} (op : t V) : option string :=
  let str := "" in
  let str := str +:+ "mutation" in
  let str :=
    if decide (Name op ≠ "") then (str +:+ " ") +:+ Name op else str in
  str ← (if decide (0 < size (Vars op)) then
           let str := str +:+ "(" in
           args ← queryArguments (Vars op);
           Some ((str +:+ args) +:+ ")")
         else Some str);
  sel ← query (Data op);
  Some (str +:+ sel).
End Mutation.

(** The variant without operation names. *)
Definition constructQuery `{NamingNormalizer} {V : Type} (v : iface V)
    (variables : gmap string (iface V)) : option string :=
  query ← query v;
  if decide (0 < size variables) then
    args ← queryArguments variables;
    Some ((("query(" +:+ args) +:+ ")") +:+ query)
  else Some query.

Definition constructMutation `{NamingNormalizer} {V : Type} (v : iface V)
    (variables : gmap string (iface V)) : option string :=
  query ← query v;
  if decide (0 < size variables) then
    args ← queryArguments variables;
    Some ((("mutation(" +:+ args) +:+ ")") +:+ query)
  else Some ("mutation" +:+ query).

(** ** Package [ident] *)

Module ident.

(** Letter case, on the ASCII letters that Go identifiers are written
    with here; any other byte is neither upper nor lower case. *)
Definition isUpper (c : ascii) : bool :=
  let n := nat_of_ascii c in (65 <=? n) && (n <=? 90).

Definition isLower (c : ascii) : bool :=
  let n := nat_of_ascii c in (97 <=? n) && (n <=? 122).

Definition toLower (c : ascii) : ascii :=
  if isUpper c then ascii_of_nat (nat_of_ascii c + 32) else c.

Definition toUpper (c : ascii) : ascii :=
  if isLower c then ascii_of_nat (nat_of_ascii c - 32) else c.

(** [strings.ToLower] *)
Fixpoint ToLower (s : string) : string :=
  match s with
  | EmptyString => EmptyString
  | String c s' => String (toLower c) (ToLower s')
  end.

(** Modelled from the spec: package [ident] is not among the sources.
    Section 4.4 segments an identifier "on transitions from
    lowercase to uppercase and on runs of uppercase followed by a
    lowercase continuation".  [wordEnds c rest] tells whether a word
    ends after [c] when [rest] follows it.  The plural [IDs] of the
    initialism stays one word, as in the reference algorithm that the
    section defers to. *)
Definition wordEnds (c : ascii) (rest : string) : bool :=
  match rest with
  | EmptyString => false
  | String d rest' =>
      (isLower c && isUpper d) ||
      (isUpper c && isUpper d &&
       match rest' with
       | String e _ =>
           isLower e &&
           negb (bool_decide (String c (String d (String e "")) = "IDs"))
       | EmptyString => false
       end)
  end.

(** Modelled from the spec: the words of a mixed-caps identifier
    (section 4.4), [word] being the word under way. *)
Fixpoint segment (word : string) (s : string) : list string :=
  match s with
  | EmptyString => if decide (word = "") then [] else [word]
  | String c rest =>
      let word := word +:+ String c "" in
      if wordEnds c rest then word :: segment "" rest
      else segment word rest
  end.

(** Modelled from the spec: [ident.ParseMixedCaps] (section 4.4). *)
Definition ParseMixedCaps (name : string) : list string := segment "" name.

(** Modelled from the spec: a word that is not the first starts with a
    capital and goes on in lower case: section 4.4 has [UserID] not give
    [userID]. *)
Definition Title (word : string) : string :=
  match word with
  | EmptyString => EmptyString
  | String c rest => String (toUpper c) (ToLower rest)
  end.

(** Modelled from the spec: [Name.ToLowerCamelCase] (section 4.4):
    "the leading word is lowercased"; the words that follow are
    capitalised. *)
Definition ToLowerCamelCase (n : list string) : string :=
  match n with
  | [] => ""
  | word :: words => ToLower word +:+ String.concat "" (Title <$> words)
  end.

(** Modelled from the spec: the naming normalizer of section 4.4. *)
Definition normalizer : NamingNormalizer :=
  fun name => ToLowerCamelCase (ParseMixedCaps name).

End ident.

(** ** The compilers step by step

    The same functions on the accessors of [reflect.Type], with the
    [io.Writer] as the buffer written so far and a bound [fuel] on the
    depth of the recursion; [None] is a panic or a recursion deeper than
    [fuel]. *)

Module Steps.

Global Instance OtherKind_eq_dec : EqDecision reflect.OtherKind.
Proof. solve_decision. Defined.
Global Instance Kind_eq_dec : EqDecision reflect.Kind.
Proof. solve_decision. Defined.

(** [io.WriteString(w, s)] on a [bytes.Buffer]. *)
Definition WriteString (w s : string) : string := w +:+ s.

Fixpoint writeArgumentType (fuel : nat) (w : string) (t : rtype)
    (value : bool) : option string :=
  match fuel with
  | 0 => None
  | S fuel =>
      if decide (reflect.kind t = reflect.Ptr) then
        e ← reflect.elem t;
        writeArgumentType fuel w e false
      else
        w ← match reflect.kind t with
            | reflect.Slice | reflect.Array =>
                let w := WriteString w "[" in
                e ← reflect.elem t;
                w ← writeArgumentType fuel w e true;
                Some (WriteString w "]")
            | _ =>
                let name := reflect.name t in
                let name := if decide (name = "string") then "ID" else name in
                Some (WriteString w name)
            end;
        Some (if value then WriteString w "!" else w)
  end.

(** The [for] loop of [writeQuery] over the fields of [t], at index
    [i] with [todo] fields to go; [writeQuery] stands for the function
    in the recursive call. *)
Fixpoint fieldsLoop `{NamingNormalizer}
    (writeQuery : string → rtype → bool → option string)
    (t : rtype) (todo i : nat) (w : string) : option string :=
  match todo with
  | 0 => Some w
  | S todo =>
      let w := if decide (i ≠ 0) then WriteString w "," else w in
      f ← reflect.field t i;
      let ok := bool_decide (is_Some (reflect.Tag f)) in
      let inlineField := reflect.Anonymous f && negb ok in
      let w :=
        if negb inlineField then
          match reflect.Tag f with
          | Some value => WriteString w value
          | None => WriteString w (toLowerCamelCase (reflect.Name f))
          end
        else w in
      w ← writeQuery w (reflect.Typ f) inlineField;
      fieldsLoop writeQuery t todo (S i) w
  end.

Fixpoint writeQuery `{NamingNormalizer} (fuel : nat) (w : string)
    (t : rtype) (inline : bool) : option string :=
  match fuel with
  | 0 => None
  | S fuel =>
      match reflect.kind t with
      | reflect.Ptr | reflect.Slice =>
          e ← reflect.elem t;
          writeQuery fuel w e false
      | reflect.Struct =>
          if reflect.ptrImplementsUnmarshaler t then Some w
          else
            let w := if negb inline then WriteString w "{" else w in
            n ← reflect.numField t;
            w ← fieldsLoop (writeQuery fuel) t n 0 w;
            Some (if negb inline then WriteString w "}" else w)
      | _ => Some w
      end
  end.

End Steps.

(** ** Sample inputs *)

Section Samples.

(** The package's scalars [Int] and [Boolean] are named types of some
    kind that is no pointer, list or struct. *)
Variables kInt kBoolean : reflect.OtherKind.

Definition Int : rtype := TOther kInt "Int".
Definition Boolean : rtype := TOther kBoolean "Boolean".

Definition fld (name : string) (t : rtype) : StructField rtype :=
  mkStructField name false None t.

(** [struct{Foo Int; BarBaz *Boolean}] *)
Definition FooBarBaz : rtype :=
  TStruct "" false [fld "Foo" Int; fld "BarBaz" (TPtr Boolean)].

(** [map[string]interface{}{"a": Int(..), "b": NewBoolean(..)}] *)
Definition vars_a_b {V : Type} (a b : V) : gmap string (iface V) :=
  {[ "a" := ival Int a; "b" := ival (TPtr Boolean) b ]}.

(** [type AB struct{A, B Int}] and [struct{AB; C Int}], [AB] embedded. *)
Definition AB : rtype := TStruct "AB" false [fld "A" Int; fld "B" Int].
Definition Embedding : rtype :=
  TStruct "" false [mkStructField "AB" true None AB; fld "C" Int].


End Samples.

(** Go's bare [string]. *)
Definition bare_string : rtype := TOther reflect.String "string".

(** ** The operations as the client sees them *)

Module http.

(** [http.Request], as far as the client and a request handler set it;
    [Header.Set] replaces the values of a key that is in canonical
    form. *)
Record Request : Type := mkRequest {
  Method : string;
  URL : string;
  Header : gmap string (list string);
  Body : string
}.

Definition Header_Set (key value : string) (req : Request) : Request :=
  {| Method := Method req; URL := URL req;
     Header := <[key := [value]]> (Header req); Body := Body req |}.

Record Response : Type := mkResponse {
  StatusCode : nat;
  Status : string;
  ResponseBody : string
}.

Definition MethodPost : string := "POST".
Definition StatusOK : nat := 200.

End http.

(** [RequestHandlerFunc]: the handler changes the request in place. *)
Definition RequestHandlerFunc : Type := http.Request → http.Request.

(** The body shared by the three [ModifyRequest] methods; [None] is the
    nil handler. *)
Definition ModifyRequest (RequestHandler : option RequestHandlerFunc)
    (req : http.Request) : http.Request :=
  match RequestHandler with
  | Some handler => handler req
  | None => req
  end.

(** The [Operation] interface: the results of its methods. *)
Record Operation (V : Type) : Type := mkOperation {
  op_Query : option string;
  op_Variables : gmap string (iface V);
  op_ResponsePtr : iface V;
  op_OperationName : string;
  op_ModifyRequest : http.Request → http.Request
}.
Global Arguments mkOperation {V} _ _ _ _ _.
Global Arguments op_Query {V} _.
Global Arguments op_Variables {V} _.
Global Arguments op_ResponsePtr {V} _.
Global Arguments op_OperationName {V} _.
Global Arguments op_ModifyRequest {V} _.

(** [*Query] and [*Mutation] as operations: the name is embedded in the
    document, not in the request. *)
Definition Query_Operation `{NamingNormalizer} {V : Type} (op : Query.t V)
    (RequestHandler : option RequestHandlerFunc) : Operation V :=
  {| op_Query := Query.Query op;
     op_Variables := Query.Vars op;
     op_ResponsePtr := Query.Data op;
     op_OperationName := "";
     op_ModifyRequest := ModifyRequest RequestHandler |}.

Definition Mutation_Operation `{NamingNormalizer} {V : Type}
    (op : Mutation.t V) (RequestHandler : option RequestHandlerFunc)
    : Operation V :=
  {| op_Query := Mutation.Query op;
     op_Variables := Mutation.Vars op;
     op_ResponsePtr := Mutation.Data op;
     op_OperationName := "";
     op_ModifyRequest := ModifyRequest RequestHandler |}.

(** [*Static]: a document written by hand. *)
Module Static.
Record t (V : Type) : Type := mk {
  Name : string;
  QueryStr : string;
  Into : iface V;
  Vars : gmap string (iface V)
}.
Global Arguments mk {V} _ _ _ _.
Global Arguments Name {V} _.
Global Arguments QueryStr {V} _.
Global Arguments Into {V} _.
Global Arguments Vars {V} _.
End Static.

Definition Static_Operation {V : Type} (op : Static.t V)
    (RequestHandler : option RequestHandlerFunc) : Operation V :=
  {| op_Query := Some (Static.QueryStr op);
     op_Variables := Static.Vars op;
     op_ResponsePtr := Static.Into op;
     op_OperationName := Static.Name op;
     op_ModifyRequest := ModifyRequest RequestHandler |}.

(** ** The client *)

(** The [request] that is encoded and the [response] that is decoded. *)
Record request (V : Type) : Type := mkrequest {
  req_Query : string;
  req_Variables : gmap string (iface V);
  req_OperationName : string
}.
Global Arguments mkrequest {V} _ _ _.
Global Arguments req_Query {V} _.
Global Arguments req_Variables {V} _.
Global Arguments req_OperationName {V} _.

Record Location : Type := mkLocation { Line : Z; Column : Z }.
Record errorEntry : Type := mkError {
  Message : string;
  Locations : list Location
}.

(** [type errors []struct{...}]; [Error] indexes [e[0]] and panics on
    the empty slice. *)
Definition errors : Type := list errorEntry.

Definition errors_Error (e : errors) : option string := Message <$> head e.

Record response : Type := mkresponse {
  Data : option string;
  Errors : errors
}.

(** What a library call returns: a value or an error. *)
Inductive result (A : Type) : Type :=
| Ok (a : A)
| Err (msg : string).
Global Arguments Ok {A} _.
Global Arguments Err {A} _.

(** The calls that leave the package: the JSON encoder and decoder, the
    HTTP client under its context, and [jsonutil.UnmarshalGraphQL], which
    fills the value behind the response pointer and may fail. *)
Class Transport (V : Type) : Type := {
  HttpClient : Type;
  DefaultClient : HttpClient;
  json_Encode : request V → result string;
  http_NewRequest : string → string → string → result http.Request;
  ctxhttp_Do : HttpClient → http.Request → result http.Response;
  json_Decode : string → result response;
  UnmarshalGraphQL : string → iface V → iface V * option string
}.

(** The error that [Run] returns: one handed on from a library call, the
    one formatted for a status other than 200, or the response's
    [errors]. *)
Inductive error : Type :=
| LibraryError (msg : string)
| Non200 (status : string) (body : string)
| GraphQLErrors (es : errors).

Record Client `{Transport V} : Type := mkClient {
  url : string;
  httpClient : HttpClient
}.
Global Arguments Client V {_}.
Global Arguments mkClient {V _} _ _.

Definition NewClient `{Transport V} (url : string)
    (httpClient : option HttpClient) : Client V :=
  let httpClient :=
    match httpClient with
    | None => DefaultClient
    | Some c => c
    end in
  {| url := url; httpClient := httpClient |}.

(** What a call of [Run] leaves behind: the requests handed to the HTTP
    client, the value behind the response pointer, and the error
    returned ([None] is nil). *)
Record outcome (V : Type) : Type := mkOutcome {
  sent : list http.Request;
  target : iface V;
  err : option error
}.
Global Arguments mkOutcome {V} _ _ _.
Global Arguments sent {V} _.
Global Arguments target {V} _.
Global Arguments err {V} _.

(** [Client.Run]; [None] is the panic of [op.Query()]. *)
Definition Run `{Transport V} (c : Client V) (op : Operation V)
    : option (outcome V) :=
  query ← op_Query op;
  let in_ := {| req_Query := query;
                req_Variables := op_Variables op;
                req_OperationName := op_OperationName op |} in
  let ptr := op_ResponsePtr op in
  Some
    match json_Encode in_ with
    | Err e => mkOutcome [] ptr (Some (LibraryError e))
    | Ok buf =>
        match http_NewRequest http.MethodPost (url c) buf with
        | Err e => mkOutcome [] ptr (Some (LibraryError e))
        | Ok req =>
            let req := http.Header_Set "Content-Type" "application/json" req in
            let req := op_ModifyRequest op req in
            match ctxhttp_Do (httpClient c) req with
            | Err e => mkOutcome [req] ptr (Some (LibraryError e))
            | Ok resp =>
                if decide (http.StatusCode resp ≠ http.StatusOK) then
                  mkOutcome [req] ptr
                    (Some (Non200 (http.Status resp) (http.ResponseBody resp)))
                else
                  match json_Decode (http.ResponseBody resp) with
                  | Err e => mkOutcome [req] ptr (Some (LibraryError e))
                  | Ok out =>
                      let filled :=
                        match Data out with
                        | Some data => UnmarshalGraphQL data ptr
                        | None => (ptr, None)
                        end in
                      match filled.2 with
                      | Some e => mkOutcome [req] filled.1 (Some (LibraryError e))
                      | None =>
                          if decide (0 < length (Errors out)) then
                            mkOutcome [req] filled.1
                              (Some (GraphQLErrors (Errors out)))
                          else mkOutcome [req] filled.1 None
                      end
                  end
            end
        end
    end.

(** [Client.Query] and [Client.Mutate]: the operation has no name and
    no request handler. *)
Definition Client_Query `{NamingNormalizer} `{Transport V} (c : Client V)
    (q : iface V) (variables : gmap string (iface V)) : option (outcome V) :=
  Run c (Query_Operation (Query.mk "" q variables) None).

Definition Client_Mutate `{NamingNormalizer} `{Transport V} (c : Client V)
    (m : iface V) (variables : gmap string (iface V)) : option (outcome V) :=
  Run c (Mutation_Operation (Mutation.mk "" m variables) None).

(** A server for the examples: it answers every request with status 200,
    the request body as data and the errors [es]; unmarshalling stores
    the length of the data behind the pointer. *)
Definition sample_server (es : errors) : Transport nat :=
  {| HttpClient := unit;
     DefaultClient := tt;
     json_Encode := λ r, Ok (req_Query r);
     http_NewRequest := λ method url body, Ok (http.mkRequest method url ∅ body);
     ctxhttp_Do := λ _ req, Ok (http.mkResponse 200 "200 OK" (http.Body req));
     json_Decode := λ body, Ok (mkresponse (Some body) es);
     UnmarshalGraphQL := λ data ptr,
       (match ptr with
        | ival t _ => ival t (String.length data)
        | inil => inil
        end, None) |}.

Definition sample_transport : Transport nat :=
  sample_server [mkError "boom" []].

Definition sample_client : @Client nat sample_transport :=
  @NewClient nat sample_transport "http://localhost/graphql" None.

Definition quiet_transport : Transport nat := sample_server [].

Definition quiet_client : @Client nat quiet_transport :=
  @NewClient nat quiet_transport "http://localhost/graphql" None.

(** ** Notions used to state properties of the compilers *)

(** A pointer or slice wrapper around a type, and a stack of them. *)
Inductive Wrapper : Set := WPtr | WSlice.

Definition wrap1 (w : Wrapper) (t : rtype) : rtype :=
  match w with
  | WPtr => TPtr t
  | WSlice => TSlice t
  end.

Definition wrap (ws : list Wrapper) (t : rtype) : rtype := foldr wrap1 t ws.

(** The number of bytes [c] in [s]. *)
Fixpoint count (c : ascii) (s : string) : nat :=
  match s with
  | EmptyString => 0
  | String d s' => (if decide (c = d) then 1 else 0) + count c s'
  end.

Definition brace_free (s : string) : bool :=
  bool_decide (count "{" s = 0) && bool_decide (count "}" s = 0).

(** Every name token that [writeQuery] writes for [t] is free of
    braces. *)
Fixpoint plain_names `{NamingNormalizer} (t : rtype) : bool :=
  match t with
  | TPtr e | TSlice e => plain_names e
  | TStruct _ unmarshaler fields =>
      unmarshaler ||
      (fix go (fs : list (StructField rtype)) : bool :=
         match fs with
         | [] => true
         | f :: fs' =>
             (inlineField f || brace_free (fieldName f)) &&
             plain_names (reflect.Typ f) && go fs'
         end) fields
  | _ => true
  end.

Definition plain_fields `{NamingNormalizer}
    (fs : list (StructField rtype)) : bool :=
  (fix go (fs : list (StructField rtype)) : bool :=
     match fs with
     | [] => true
     | f :: fs' =>
         (inlineField f || brace_free (fieldName f)) &&
         plain_names (reflect.Typ f) && go fs'
     end) fs.

(** ** Strings *)

Lemma string_app_assoc (s1 s2 s3 : string) :
  (s1 +:+ s2) +:+ s3 = s1 +:+ (s2 +:+ s3).
Proof.
  induction s1 as [|c s1 IH]; [done|].
  change (String c ((s1 +:+ s2) +:+ s3) = String c (s1 +:+ (s2 +:+ s3))).
  by rewrite IH.
Qed.

Lemma string_app_nil_r (s : string) : s +:+ "" = s.
Proof.
  induction s as [|c s IH]; [done|].
  change (String c (s +:+ "") = String c s). by rewrite IH.
Qed.

Lemma string_app_nil_l (s : string) : "" +:+ s = s.
Proof. done. Qed.

Lemma string_length_app (s1 s2 : string) :
  String.length (s1 +:+ s2) = String.length s1 + String.length s2.
Proof.
  induction s1 as [|c s1 IH]; [done|].
  change (S (String.length (s1 +:+ s2)) = S (String.length s1 + String.length s2)).
  by rewrite IH.
Qed.

Lemma string_app_cons (c : ascii) (s1 s2 : string) :
  String c s1 +:+ s2 = String c (s1 +:+ s2).
Proof. done. Qed.

Create Rewrite HintDb strapp.
#[export] Hint Rewrite string_app_assoc string_app_nil_r string_app_nil_l
  : strapp.

Ltac strapp := autorewrite with strapp; try done.

(** ** Induction on type descriptions, through the fields of structs *)

Lemma rtype_fields_ind (P : rtype → Prop) :
  (∀ k name, P (TOther k name)) →
  (∀ e, P e → P (TPtr e)) →
  (∀ e, P e → P (TSlice e)) →
  (∀ e, P e → P (TArray e)) →
  (∀ name u fs, Forall (λ f, P (reflect.Typ f)) fs → P (TStruct name u fs)) →
  ∀ t, P t.
Proof.
  intros HO HP HS HA HT.
  fix IH 1. intros [k n|e|e|e|n u fs].
  - apply HO.
  - apply HP, IH.
  - apply HS, IH.
  - apply HA, IH.
  - apply HT. induction fs as [|[fn fa ft ty] fs IHfs]; constructor.
    + apply IH.
    + apply IHfs.
Qed.

(** ** Type-name resolver *)

Lemma writeArgumentType_ptr (t : rtype) (value : bool) :
  writeArgumentType (TPtr t) value = writeArgumentType t false.
Proof. done. Qed.

Lemma writeArgumentType_list (t : rtype) (value : bool) :
  writeArgumentType (TSlice t) value
    = "[" +:+ writeArgumentType t true +:+ "]" +:+ (if value then "!" else "") ∧
  writeArgumentType (TArray t) value
    = "[" +:+ writeArgumentType t true +:+ "]" +:+ (if value then "!" else "").
Proof. split; simpl; by strapp. Qed.

Lemma writeArgumentType_required (t : rtype) :
  writeArgumentType t true
    = writeArgumentType t false +:+
      (if decide (reflect.kind t = reflect.Ptr) then "" else "!").
Proof.
  destruct t; simpl; by strapp.
Qed.

(** C3. The token of a pointer type [*T] resolved as required is the
    token of [T] resolved as optional: one pointer level is unwrapped and
    no ["!"] is appended.  The token of [T] resolved as required is the
    one resolved as optional followed by ["!"], unless [T] is itself a
    pointer; so a type that is no pointer, resolved as required, ends in
    ["!"], which its pointer-wrapped token lacks. *)
Theorem writeArgumentType_pointer_optional (t : rtype) :
  writeArgumentType (TPtr t) true = writeArgumentType t false ∧
  writeArgumentType t true
    = writeArgumentType (TPtr t) true +:+
      (if decide (reflect.kind t = reflect.Ptr) then "" else "!").
Proof.
  split; [done|]. rewrite writeArgumentType_ptr.
  apply writeArgumentType_required.
Qed.

(** C4. Go's bare [string] type resolves to ["ID!"], never to
    ["String!"], and the declaration that the argument compiler writes
    for a variable [k] holding a value of that type is ["$k:ID!"]. *)
Theorem bare_string_is_ID {V : Type} (variables : gmap string (iface V))
    (k : string) (v : V) (keys : list string)
    (Hk : variables !! k = Some (ival bare_string v)) :
  writeArgumentType bare_string true = "ID!" ∧
  writeArgumentType bare_string true ≠ "String!" ∧
  declaration variables k = Some ("$" +:+ k +:+ ":ID!") ∧
  writeArguments variables (k :: keys)
    = (λ rest, "$" +:+ k +:+ ":ID!" +:+ rest) <$> writeArguments variables keys.
Proof.
  split; [done|]. split; [done|].
  unfold declaration. simpl. rewrite lookup_total_alt, Hk. simpl.
  split; [done|]. by destruct (writeArguments variables keys).
Qed.

Lemma bare_string_is_ID_witness :
  writeArgumentType bare_string true = "ID!" ∧
  queryArguments_from ["id"]
    ({[ "id" := ival bare_string 7 ]} : gmap string (iface nat))
    = Some "$id:ID!".
Proof.
  pose proof (bare_string_is_ID
    ({[ "id" := ival bare_string 7 ]} : gmap string (iface nat))
    "id" 7 [] (lookup_singleton_eq _ _)) as (H1 & _ & _ & H4).
  split; [exact H1|]. exact H4.
Defined.

(** ** Argument compiler *)

Lemma sort_Strings_Permutation (keys : list string) :
  sort_Strings keys ≡ₚ keys.
Proof. apply merge_sort_Permutation. Qed.

Lemma sort_Strings_Sorted (keys : list string) :
  StronglySorted String.le (sort_Strings keys).
Proof. apply StronglySorted_merge_sort; apply _. Qed.

(** Any way of sorting the keys gives the list of [sort_Strings]:
    [sort.Strings] is determined by its contract. *)
Lemma sort_Strings_any_sort (sorted keys : list string) :
  sorted ≡ₚ keys → Sorted String.le sorted → sorted = sort_Strings keys.
Proof.
  intros Hp Hs. apply (Sorted_unique String.le); [done| |].
  - apply Sorted_merge_sort; apply _.
  - by rewrite Hp, sort_Strings_Permutation.
Qed.

Lemma sort_Strings_unique (keys1 keys2 : list string) :
  keys1 ≡ₚ keys2 → sort_Strings keys1 = sort_Strings keys2.
Proof.
  intros Hp. apply sort_Strings_any_sort.
  - by rewrite sort_Strings_Permutation.
  - apply Sorted_merge_sort; apply _.
Qed.

Lemma StronglySorted_strict (l : list string) :
  NoDup l → StronglySorted String.le l → StronglySorted (strict String.le) l.
Proof.
  induction 2 as [|x l Hl IH Hx]; [constructor|].
  apply NoDup_cons in H as [Hnx Hnd].
  constructor; [by apply IH|].
  rewrite Forall_forall in Hx |- *. intros y Hy. split; [by apply Hx|].
  intros Hyx. assert (x = y) as -> by (apply (anti_symm String.le); auto).
  done.
Qed.

Lemma writeArguments_declarations {V : Type}
    (variables : gmap string (iface V)) (keys : list string) :
  writeArguments variables keys
    = String.concat "" <$> mapM (declaration variables) keys.
Proof.
  induction keys as [|k keys IH]; [done|].
  simpl. rewrite IH. unfold declaration.
  destruct (reflect.TypeOf (variables !!! k)) as [t|]; [|done]. simpl.
  destruct (mapM _ keys) as [ds|]; [|done]. simpl. f_equal.
  destruct ds as [|d ds]; simpl; by strapp.
Qed.

Lemma writeArguments_ext {V W : Type} (m1 : gmap string (iface V))
    (m2 : gmap string (iface W)) (keys : list string) :
  (∀ k, reflect.TypeOf <$> m1 !! k = reflect.TypeOf <$> m2 !! k) →
  writeArguments m1 keys = writeArguments m2 keys.
Proof.
  intros Hty. induction keys as [|k keys IH]; [done|].
  simpl. rewrite IH.
  assert (reflect.TypeOf (m1 !!! k) = reflect.TypeOf (m2 !!! k)) as ->; [|done].
  rewrite !lookup_total_alt. specialize (Hty k).
  destruct (m1 !! k), (m2 !! k); simplify_eq/=; done.
Qed.

Lemma range_keys_NoDup {V : Type} (variables : gmap string (iface V))
    (keys : list string) :
  range_keys variables keys → NoDup keys.
Proof. intros ->. apply NoDup_fst_map_to_list. Qed.

Lemma range_keys_dom {V : Type} (variables : gmap string (iface V))
    (keys : list string) (k : string) :
  range_keys variables keys → k ∈ keys ↔ is_Some (variables !! k).
Proof.
  intros ->. rewrite list_elem_of_fmap. split.
  - intros [[k' v] [-> Hin%elem_of_map_to_list]]. eauto.
  - intros [v Hv]. exists (k, v). by rewrite elem_of_map_to_list.
Qed.

Lemma range_keys_same_types {V W : Type} (m1 : gmap string (iface V))
    (m2 : gmap string (iface W)) (keys1 keys2 : list string) :
  range_keys m1 keys1 → range_keys m2 keys2 →
  (∀ k, reflect.TypeOf <$> m1 !! k = reflect.TypeOf <$> m2 !! k) →
  keys1 ≡ₚ keys2.
Proof.
  intros H1 H2 Hty. apply NoDup_Permutation; eauto using range_keys_NoDup.
  intros k. rewrite (range_keys_dom m1), (range_keys_dom m2) by done.
  specialize (Hty k). rewrite <-!fmap_is_Some with (f := reflect.TypeOf).
  by rewrite Hty.
Qed.

(** The canonical enumeration is one the range loop may yield, so
    [queryArguments] is [queryArguments_from] at any enumeration. *)
Lemma queryArguments_from_any {V : Type} (variables : gmap string (iface V))
    (keys : list string) :
  range_keys variables keys →
  queryArguments_from keys variables = queryArguments variables.
Proof.
  intros Hk. unfold queryArguments, queryArguments_from.
  by rewrite (sort_Strings_unique _ _ Hk).
Qed.

(** The argument compiler returns exactly when no variable is bound to
    the nil interface. *)
Lemma writeArguments_is_Some {V : Type} (variables : gmap string (iface V))
    (keys : list string) :
  is_Some (writeArguments variables keys)
    ↔ ∀ k, k ∈ keys → is_Some (reflect.TypeOf (variables !!! k)).
Proof.
  induction keys as [|k keys IH]; simpl.
  - split; [intros _ k Hk; by apply elem_of_nil in Hk|eauto].
  - split.
    + intros [s Hs] k' Hk'.
      destruct (reflect.TypeOf (variables !!! k)) as [t|] eqn:Ht; [|done].
      simpl in Hs.
      destruct (writeArguments variables keys) as [rest|] eqn:Hr; [|done].
      apply elem_of_cons in Hk' as [->|Hk']; [by rewrite Ht|].
      apply IH; eauto.
    + intros Hall.
      destruct (Hall k) as [t ->]; [by left|]. simpl.
      destruct (proj2 IH) as [rest ->]; [|by eexists].
      intros k' Hk'. apply Hall. by right.
Qed.

Lemma queryArguments_returns {V : Type} (variables : gmap string (iface V))
    (keys : list string) :
  range_keys variables keys →
  is_Some (queryArguments_from keys variables)
    ↔ ∀ k v, variables !! k = Some v → v ≠ inil.
Proof.
  intros Hkeys. unfold queryArguments_from. rewrite writeArguments_is_Some.
  split.
  - intros Hall k v Hkv ->.
    destruct (Hall k) as [t Ht].
    + rewrite sort_Strings_Permutation, (range_keys_dom variables) by done.
      eauto.
    + by rewrite lookup_total_alt, Hkv in Ht.
  - intros Hall k Hk.
    rewrite sort_Strings_Permutation, (range_keys_dom variables) in Hk by done.
    destruct Hk as [v Hv]. rewrite lookup_total_alt, Hv. simpl.
    destruct v as [|t v]; [by destruct (Hall k inil)|by eexists].
Qed.

(** C2. Whatever order the range loop yields the keys in, the rendered
    list is the concatenation of the declarations in strictly ascending
    order of the variable names, and two maps that bind the same names to
    values of the same types render the same string, whatever the two
    enumeration orders and whatever the values. *)
Theorem queryArguments_sorted_deterministic {V W : Type}
    (m1 : gmap string (iface V)) (m2 : gmap string (iface W))
    (keys1 keys2 : list string)
    (Hkeys1 : range_keys m1 keys1) (Hkeys2 : range_keys m2 keys2)
    (Htypes : ∀ k, reflect.TypeOf <$> m1 !! k = reflect.TypeOf <$> m2 !! k) :
  (∃ sorted,
     sorted ≡ₚ keys1 ∧ StronglySorted (strict String.le) sorted ∧
     queryArguments_from keys1 m1
       = String.concat "" <$> mapM (declaration m1) sorted) ∧
  queryArguments_from keys1 m1 = queryArguments_from keys2 m2.
Proof.
  split.
  - exists (sort_Strings keys1). split; [apply sort_Strings_Permutation|].
    split; [|apply writeArguments_declarations].
    apply StronglySorted_strict; [|apply sort_Strings_Sorted].
    rewrite sort_Strings_Permutation. by eapply range_keys_NoDup.
  - unfold queryArguments_from.
    rewrite (sort_Strings_unique keys1 keys2)
      by eauto using range_keys_same_types.
    by apply writeArguments_ext.
Qed.

Lemma queryArguments_sorted_deterministic_witness :
  range_keys (vars_a_b reflect.Int32 reflect.Bool 123 1) ["b"; "a"] ∧
  range_keys (vars_a_b reflect.Int32 reflect.Bool "x" "y") ["a"; "b"] ∧
  queryArguments_from ["b"; "a"] (vars_a_b reflect.Int32 reflect.Bool 123 1)
    = queryArguments_from ["a"; "b"] (vars_a_b reflect.Int32 reflect.Bool "x" "y").
Proof.
  assert (range_keys (vars_a_b reflect.Int32 reflect.Bool 123 1) ["b"; "a"])
    as H1 by (vm_compute; apply perm_swap).
  assert (range_keys (vars_a_b reflect.Int32 reflect.Bool "x" "y") ["a"; "b"])
    as H2 by (vm_compute; apply Permutation_refl).
  split; [exact H1|]. split; [exact H2|].
  refine (proj2 (queryArguments_sorted_deterministic _ _ _ _ H1 H2 _)).
  intros k. unfold vars_a_b.
  destruct (decide (k = "a")) as [->|Ha]; [reflexivity|].
  rewrite !lookup_insert_ne by done.
  destruct (decide (k = "b")) as [->|Hb]; [reflexivity|].
  rewrite !lookup_singleton_ne by done. reflexivity.
Defined.

(** ** Operation assembly: the end-to-end example *)

(** C1. The query with the empty name, variables
    [{"a": an Int, "b": a pointer to a Boolean}] and data shape
    [struct{Foo Int; BarBaz *Boolean}] compiles to exactly
    ["query($a:Int!$b:Boolean){foo,barBaz}"], under the naming normalizer
    of package [ident]. *)
Theorem Query_end_to_end (kInt kBoolean : reflect.OtherKind)
    (V : Type) (a b data : V) :
  @Query.Query ident.normalizer V
    (Query.mk "" (ival (FooBarBaz kInt kBoolean) data)
       (vars_a_b kInt kBoolean a b))
  = Some "query($a:Int!$b:Boolean){foo,barBaz}".
Proof. vm_compute. reflexivity. Qed.

(** ** Selection compiler *)

Lemma writeQuery_struct `{NamingNormalizer} (name : string) (u : bool)
    (fs : list (StructField rtype)) (inline : bool) :
  writeQuery (TStruct name u fs) inline
    = if u then ""
      else (if inline then "" else "{") +:+ writeFields 0 fs +:+
           (if inline then "" else "}").
Proof.
  destruct u; [done|]. simpl.
  match goal with
  | |- _ +:+ ?loop 0 fs +:+ _ = _ =>
      assert (∀ gs i, loop i gs = writeFields i gs) as ->; [|done]
  end.
  induction gs as [|f gs IH]; intros i; [done|].
  simpl. rewrite IH. unfold writeField. by strapp.
Qed.

Lemma writeQuery_other `{NamingNormalizer} (k : reflect.OtherKind)
    (name : string) (inline : bool) :
  writeQuery (TOther k name) inline = "".
Proof. done. Qed.

(** An array type is not descended into: it writes nothing. *)
Lemma writeQuery_array `{NamingNormalizer} (e : rtype) (inline : bool) :
  writeQuery (TArray e) inline = "".
Proof. done. Qed.



(** C5. A struct type whose pointer implements [json.Unmarshaler] writes
    nothing, whatever its fields and whether inlined or not; one that
    does not is expanded into its fields, between braces unless it is
    inlined into its parent.  So the record is compiled to a braced
    selection exactly when it lacks the capability, and a field of a
    custom-scalar record type contributes its name token alone (nothing
    when it is inlined). *)
Theorem struct_expanded_iff_no_unmarshaler `{NamingNormalizer}
    (name : string) (u : bool) (fs : list (StructField rtype)) :
  (∀ inline, writeQuery (TStruct name true fs) inline = "") ∧
  writeQuery (TStruct name false fs) false = "{" +:+ writeFields 0 fs +:+ "}" ∧
  writeQuery (TStruct name false fs) true = writeFields 0 fs ∧
  ((∃ body, writeQuery (TStruct name u fs) false = "{" +:+ body +:+ "}")
     ↔ u = false) ∧
  (∀ fname anon tag,
     writeField (mkStructField fname anon tag (TStruct name true fs))
       = if inlineField (mkStructField fname anon tag (TStruct name true fs))
         then ""
         else fieldName (mkStructField fname anon tag (TStruct name true fs))).
Proof.
  split; [done|]. split; [exact (writeQuery_struct name false fs false)|].
  split; [rewrite writeQuery_struct; by strapp|]. split.
  - rewrite writeQuery_struct. destruct u; split; try done.
    + intros [body Hb]. discriminate Hb.
    + intros _. by exists (writeFields 0 fs).
  - intros fname anon tag. unfold writeField. simpl. by strapp.
Qed.


(** An anonymous untagged field of pointer type gets no name token
    either, but the pointer is unwrapped with [inline = false]: a record
    behind it keeps its braces. *)
Lemma embedded_pointer_field `{NamingNormalizer} (fname name : string)
    (fs : list (StructField rtype)) :
  writeField (mkStructField fname true None (TPtr (TStruct name false fs)))
    = "{" +:+ writeFields 0 fs +:+ "}".
Proof.
  change (writeField _) with (writeQuery (TStruct name false fs) false).
  by rewrite writeQuery_struct.
Qed.


(** C8, as the code has it. A type of pointer kind or of slice kind has
    an element type, and the selection compiler, whatever [inline] it was
    called with, recurses into that element type with [inline = false]
    and writes exactly what this call writes: one level is unwrapped and
    the wrapper writes nothing. *)
Theorem writeQuery_unwraps_pointer_and_slice `{NamingNormalizer}
    (t : rtype) (inline : bool)
    (Hkind : reflect.kind t = reflect.Ptr ∨ reflect.kind t = reflect.Slice) :
  ∃ e, reflect.elem t = Some e ∧
       writeQuery t inline = writeQuery e false ∧
       ∀ fuel w,
         Steps.writeQuery (S fuel) w t inline = Steps.writeQuery fuel w e false.
Proof.
  destruct t as [k n|e|e|e|n u fs]; destruct Hkind as [Hk|Hk];
    try discriminate Hk; exists e; done.
Qed.

Lemma writeQuery_unwraps_pointer_and_slice_witness :
  ∃ e, reflect.elem (TSlice (TPtr (FooBarBaz reflect.Int32 reflect.Bool)))
         = Some e ∧
       @writeQuery ident.normalizer
          (TSlice (TPtr (FooBarBaz reflect.Int32 reflect.Bool))) true
         = @writeQuery ident.normalizer e false ∧
       ∀ fuel w,
         @Steps.writeQuery ident.normalizer (S fuel) w
            (TSlice (TPtr (FooBarBaz reflect.Int32 reflect.Bool))) true
           = @Steps.writeQuery ident.normalizer fuel w e false.
Proof.
  exact (writeQuery_unwraps_pointer_and_slice
           (H := ident.normalizer)
           (TSlice (TPtr (FooBarBaz reflect.Int32 reflect.Bool))) true
           (or_intror eq_refl)).
Defined.

(** An array of [struct{Foo Int; BarBaz *Boolean}] has an element type,
    yet the selection compiler does not unwrap it: it writes nothing
    where the element type writes ["{foo,barBaz}"]. *)
Lemma writeQuery_array_not_unwrapped :
  reflect.kind (TArray (FooBarBaz reflect.Int32 reflect.Bool)) = reflect.Array ∧
  reflect.elem (TArray (FooBarBaz reflect.Int32 reflect.Bool))
    = Some (FooBarBaz reflect.Int32 reflect.Bool) ∧
  @writeQuery ident.normalizer
     (TArray (FooBarBaz reflect.Int32 reflect.Bool)) false = "" ∧
  @writeQuery ident.normalizer (FooBarBaz reflect.Int32 reflect.Bool) false
    = "{foo,barBaz}" ∧
  @writeQuery ident.normalizer
     (TArray (FooBarBaz reflect.Int32 reflect.Bool)) false
    ≠ @writeQuery ident.normalizer (FooBarBaz reflect.Int32 reflect.Bool) false ∧
  @Steps.writeQuery ident.normalizer 3 ""
     (TArray (FooBarBaz reflect.Int32 reflect.Bool)) false = Some "" ∧
  @Steps.writeQuery ident.normalizer 3 ""
     (FooBarBaz reflect.Int32 reflect.Bool) false = Some "{foo,barBaz}".
Proof. repeat split; by vm_compute. Qed.

(** ** Operation assembly *)

Lemma queryArguments_empty {V : Type} (variables : gmap string (iface V)) :
  size variables = 0 → queryArguments variables = Some "".
Proof.
  intros ->%map_size_empty_iff. unfold queryArguments, queryArguments_from.
  by rewrite map_to_list_empty.
Qed.

Ltac document_cases :=
  repeat (case_decide; simplify_eq/=);
  repeat match goal with
         | H : String.length (_ +:+ _) = 0 |- _ =>
             rewrite string_length_app in H; simpl in H
         | H : ¬ (_ ∧ _) |- _ => apply not_and_l in H as [?|?]
         | H : _ ∧ _ |- _ => destruct H
         end;
  try lia; try done; strapp.

Lemma Query_document `{NamingNormalizer} {V : Type} (name : string)
    (data : iface V) (vars : gmap string (iface V)) :
  Query.Query (Query.mk name data vars)
    = (args ← queryArguments vars;
       sel ← query data;
       Some ((if decide (name = "" ∧ size vars = 0) then "" else "query") +:+
             (if decide (name = "") then "" else " " +:+ name) +:+
             (if decide (size vars = 0) then "" else "(" +:+ args +:+ ")") +:+
             sel)).
Proof.
  unfold Query.Query. simpl.
  destruct (decide (0 < size vars)) as [Hv|Hv];
    [destruct (queryArguments vars) as [args|]; [simpl|done]
    |rewrite queryArguments_empty by lia; simpl];
    (destruct (query data) as [sel|]; [simpl|done]);
    f_equal; document_cases.
Qed.

Lemma Mutation_document `{NamingNormalizer} {V : Type} (name : string)
    (data : iface V) (vars : gmap string (iface V)) :
  Mutation.Query (Mutation.mk name data vars)
    = (args ← queryArguments vars;
       sel ← query data;
       Some ("mutation" +:+
             (if decide (name = "") then "" else " " +:+ name) +:+
             (if decide (size vars = 0) then "" else "(" +:+ args +:+ ")") +:+
             sel)).
Proof.
  unfold Mutation.Query. simpl.
  destruct (decide (0 < size vars)) as [Hv|Hv];
    [destruct (queryArguments vars) as [args|]; [simpl|done]
    |rewrite queryArguments_empty by lia; simpl];
    (destruct (query data) as [sel|]; [simpl|done]);
    f_equal; document_cases.
Qed.

(** C7, as the code has it. A query renders as the keyword, the name
    after a space, the declarations in parentheses and the selection; the
    name is left out exactly when it is empty, the parenthesised group
    exactly when there are no variables, and the keyword ["query"] itself
    exactly when both are left out.  A mutation renders the same way
    except that its keyword ["mutation"] is always there.  Either panics
    exactly when the argument compiler or the selection compiler does. *)
Theorem operation_document_form `{NamingNormalizer} {V : Type}
    (name : string) (data : iface V) (vars : gmap string (iface V)) :
  Query.Query (Query.mk name data vars)
    = (args ← queryArguments vars;
       sel ← query data;
       Some ((if decide (name = "" ∧ size vars = 0) then "" else "query") +:+
             (if decide (name = "") then "" else " " +:+ name) +:+
             (if decide (size vars = 0) then "" else "(" +:+ args +:+ ")") +:+
             sel)) ∧
  Mutation.Query (Mutation.mk name data vars)
    = (args ← queryArguments vars;
       sel ← query data;
       Some ("mutation" +:+
             (if decide (name = "") then "" else " " +:+ name) +:+
             (if decide (size vars = 0) then "" else "(" +:+ args +:+ ")") +:+
             sel)).
Proof. split; [apply Query_document|apply Mutation_document]. Qed.

(** The query with no name and no variables is the bare selection: it
    does not start with the keyword, while the same mutation does. *)
Lemma Query_bare_selection_has_no_keyword :
  @Query.Query ident.normalizer nat
     (Query.mk "" (ival (FooBarBaz reflect.Int32 reflect.Bool) 0) ∅)
    = Some "{foo,barBaz}" ∧
  "{foo,barBaz}" ≠ "query" +:+ "{foo,barBaz}" ∧
  (¬ ∃ rest, "{foo,barBaz}" = "query" +:+ rest) ∧
  @Mutation.Query ident.normalizer nat
     (Mutation.mk "" (ival (FooBarBaz reflect.Int32 reflect.Bool) 0) ∅)
    = Some "mutation{foo,barBaz}".
Proof.
  split; [by vm_compute|]. split; [done|]. split; [|by vm_compute].
  intros [rest Hrest]. discriminate Hrest.
Qed.

(** ** The two variants *)

Lemma writeQuery_ext (N1 N2 : NamingNormalizer) :
  (∀ name, @toLowerCamelCase N1 name = @toLowerCamelCase N2 name) →
  ∀ t inline, @writeQuery N1 t inline = @writeQuery N2 t inline.
Proof.
  intros HN t. induction t as [k n|e IH|e IH|e IH|n u fs IH]
    using rtype_fields_ind; intros inline; try done.
  - apply IH.
  - apply IH.
  - rewrite !writeQuery_struct. destruct u; [done|]. do 2 f_equal.
    generalize 0. induction IH as [|f fs Hf _ IHfs]; intros i; [done|].
    simpl. rewrite IHfs. do 2 f_equal. unfold writeField, fieldName.
    rewrite Hf. by destruct (reflect.Tag f); rewrite ?HN.
Qed.

Lemma query_ext (N1 N2 : NamingNormalizer) {V : Type} (v : iface V) :
  (∀ name, @toLowerCamelCase N1 name = @toLowerCamelCase N2 name) →
  @query N1 V v = @query N2 V v.
Proof.
  intros HN. unfold query. destruct v as [|t v]; [done|]. simpl.
  by rewrite (writeQuery_ext N1 N2 HN).
Qed.

(** C10. When the two variants use the same naming normalizer,
    [constructQuery] returns what [Query.Query] returns for the empty
    name, and [constructMutation] what [Mutation.Query] returns for it;
    they also panic on the same inputs. *)
Theorem variants_agree_without_name (N1 N2 : NamingNormalizer) {V : Type}
    (v : iface V) (variables : gmap string (iface V))
    (Hident : ∀ name, @toLowerCamelCase N1 name = @toLowerCamelCase N2 name) :
  @constructQuery N1 V v variables
    = @Query.Query N2 V (Query.mk "" v variables) ∧
  @constructMutation N1 V v variables
    = @Mutation.Query N2 V (Mutation.mk "" v variables).
Proof.
  rewrite Query_document, Mutation_document.
  unfold constructQuery, constructMutation.
  rewrite (query_ext N1 N2 v Hident).
  split.
  - destruct (decide (0 < size variables)) as [Hv|Hv];
      [|rewrite queryArguments_empty by lia; simpl];
      destruct (@query N2 V v) as [sel|]; simpl;
      try (destruct (queryArguments variables) as [args|]; simpl);
      try done; f_equal; document_cases.
  - destruct (decide (0 < size variables)) as [Hv|Hv];
      [|rewrite queryArguments_empty by lia; simpl];
      destruct (@query N2 V v) as [sel|]; simpl;
      try (destruct (queryArguments variables) as [args|]; simpl);
      try done; f_equal; document_cases.
Qed.

Lemma variants_agree_without_name_witness :
  @constructQuery ident.normalizer nat
     (ival (FooBarBaz reflect.Int32 reflect.Bool) 0)
     (vars_a_b reflect.Int32 reflect.Bool 123 1)
    = @Query.Query ident.normalizer nat
        (Query.mk "" (ival (FooBarBaz reflect.Int32 reflect.Bool) 0)
           (vars_a_b reflect.Int32 reflect.Bool 123 1)) ∧
  @constructMutation ident.normalizer nat
     (ival (FooBarBaz reflect.Int32 reflect.Bool) 0)
     (vars_a_b reflect.Int32 reflect.Bool 123 1)
    = @Mutation.Query ident.normalizer nat
        (Mutation.mk "" (ival (FooBarBaz reflect.Int32 reflect.Bool) 0)
           (vars_a_b reflect.Int32 reflect.Bool 123 1)).
Proof.
  exact (variants_agree_without_name ident.normalizer ident.normalizer
           _ _ (λ _, eq_refl)).
Defined.

(** ** Termination: the compilers step by step *)

Lemma height_struct (name : string) (u : bool) (fs : list (StructField rtype)) :
  reflect.height (TStruct name u fs) = S (reflect.fields_height fs).
Proof. done. Qed.

Lemma fields_height_cons (f : StructField rtype) (fs : list (StructField rtype)) :
  reflect.fields_height (f :: fs)
    = reflect.height (reflect.Typ f) `max` reflect.fields_height fs.
Proof. done. Qed.

Lemma fields_height_app (pre rest : list (StructField rtype)) :
  reflect.fields_height rest ≤ reflect.fields_height (pre ++ rest).
Proof.
  induction pre as [|f pre IH]; [done|].
  rewrite <-app_comm_cons, fields_height_cons. lia.
Qed.

Lemma Steps_writeArgumentType_spec (t : rtype) :
  ∀ fuel w value, reflect.height t < fuel →
    Steps.writeArgumentType fuel w t value
      = Some (w +:+ writeArgumentType t value).
Proof.
  unfold Steps.WriteString.
  induction t as [k n|e IH|e IH|e IH|n u fs];
    intros [|fuel] w value Hfuel; simpl in Hfuel; try lia; simpl.
  - unfold Steps.WriteString. destruct value; by strapp.
  - apply IH. lia.
  - rewrite IH by lia. simpl.
    unfold Steps.WriteString. destruct value; by strapp.
  - rewrite IH by lia. simpl.
    unfold Steps.WriteString. destruct value; by strapp.
  - unfold Steps.WriteString. destruct value; by strapp.
Qed.

Lemma Steps_fieldsLoop_spec `{NamingNormalizer}
    (rec : string → rtype → bool → option string)
    (name : string) (u : bool) (fs rest : list (StructField rtype)) :
  Forall (λ f, ∀ w inline,
            rec w (reflect.Typ f) inline
              = Some (w +:+ writeQuery (reflect.Typ f) inline)) rest →
  ∀ pre w, fs = pre ++ rest →
    Steps.fieldsLoop rec (TStruct name u fs) (length rest) (length pre) w
      = Some (w +:+ writeFields (length pre) rest).
Proof.
  induction 1 as [|f rest Hf _ IH]; intros pre w ->; simpl; [by strapp|].
  unfold reflect.field. simpl. rewrite list_lookup_middle by done. simpl.
  rewrite Hf. simpl.
  specialize (IH (pre ++ [f])). rewrite length_app, Nat.add_1_r in IH.
  rewrite IH by (by rewrite <-app_assoc).
  unfold writeField, fieldName, inlineField, Steps.WriteString. f_equal.
  destruct (decide (length pre ≠ 0)), (reflect.Anonymous f),
    (reflect.Tag f); simpl; by strapp.
Qed.

Lemma Steps_writeQuery_spec `{NamingNormalizer} (t : rtype) :
  ∀ fuel w inline, reflect.height t < fuel →
    Steps.writeQuery fuel w t inline = Some (w +:+ writeQuery t inline).
Proof.
  induction t as [k n|e IH|e IH|e IH|n u fs IH] using rtype_fields_ind;
    intros [|fuel] w inline Hfuel; try lia.
  - simpl. by strapp.
  - simpl in *. apply IH. lia.
  - simpl in *. apply IH. lia.
  - simpl. by strapp.
  - rewrite writeQuery_struct. rewrite height_struct in Hfuel.
    cbn [Steps.writeQuery reflect.kind reflect.ptrImplementsUnmarshaler
         reflect.numField reflect.fields].
    destruct u; [by strapp|]. simpl.
    rewrite (Steps_fieldsLoop_spec (Steps.writeQuery fuel) n false fs fs)
      with (pre := []); [|..|done].
    + simpl. unfold Steps.WriteString. destruct inline; simpl; by strapp.
    + rewrite Forall_forall in IH |- *. intros f Hf w' inline'.
      apply IH; [done|].
      apply list_elem_of_split in Hf as (pre & rest & ->).
      pose proof (fields_height_app pre (f :: rest)) as Hle.
      rewrite fields_height_cons in Hle. lia.
Qed.

(** C9. On every type description, of whatever nesting, the type-name
    resolver and the selection compiler return, without a panic, once
    the recursion may go one level deeper than the height of the
    description; they leave the buffer written so far in place and
    append to it, once and from left to right, the token or selection
    that the structurally recursive compilers define. *)
Theorem compilers_terminate `{NamingNormalizer} (t : rtype) (extra : nat)
    (w : string) (flag : bool) :
  Steps.writeArgumentType (S (reflect.height t) + extra) w t flag
    = Some (w +:+ writeArgumentType t flag) ∧
  Steps.writeQuery (S (reflect.height t) + extra) w t flag
    = Some (w +:+ writeQuery t flag).
Proof.
  split.
  - apply Steps_writeArgumentType_spec. lia.
  - apply Steps_writeQuery_spec. lia.
Qed.

(** ** Further properties of the type-name resolver *)

(** Any number of pointer levels around [t] is resolved like one:
    the token is that of [t] resolved as optional. *)
Theorem writeArgumentType_pointers_collapse (n : nat) (t : rtype)
    (value : bool) :
  writeArgumentType (Nat.iter (S n) TPtr t) value = writeArgumentType t false.
Proof.
  revert value. induction n as [|n IH]; intros value; [done|].
  change (writeArgumentType (Nat.iter (S n) TPtr t) false
          = writeArgumentType t false).
  apply IH.
Qed.

(** A slice and an array of [e] resolve to the same list token: the
    token of [e] between brackets, the element marked required unless
    [e] is a pointer, and the list itself marked as asked. *)
Theorem writeArgumentType_list_token (e : rtype) (value : bool) :
  writeArgumentType (TSlice e) value = writeArgumentType (TArray e) value ∧
  writeArgumentType (TSlice e) value
    = "[" +:+ writeArgumentType e false +:+
      (if decide (reflect.kind e = reflect.Ptr) then "" else "!") +:+
      "]" +:+ (if value then "!" else "").
Proof.
  split; [done|].
  rewrite (proj1 (writeArgumentType_list e value)).
  rewrite writeArgumentType_required. by strapp.
Qed.

(** ** Further properties of the selection compiler *)

Lemma writeFields_later `{NamingNormalizer} (i : nat)
    (fs : list (StructField rtype)) :
  writeFields (S i) fs
    = String.concat "" ((λ f, "," +:+ writeField f) <$> fs).
Proof.
  revert i. induction fs as [|f fs IH]; intros i; [done|].
  cbn [writeFields fmap list_fmap]. rewrite IH.
  rewrite decide_True by done.
  destruct fs as [|g fs]; simpl; by strapp.
Qed.

Lemma concat_comma (x : string) (xs : list string) :
  String.concat "," (x :: xs)
    = x +:+ String.concat "" ((λ y, "," +:+ y) <$> xs).
Proof.
  revert x. induction xs as [|y ys IH]; intros x; [simpl; by strapp|].
  change (String.concat "," (x :: y :: ys))
    with (x +:+ "," +:+ String.concat "," (y :: ys)).
  rewrite IH. destruct ys as [|z zs]; simpl; by strapp.
Qed.

Lemma writeFields_join `{NamingNormalizer} (fs : list (StructField rtype)) :
  writeFields 0 fs = String.concat "," (writeField <$> fs).
Proof.
  destruct fs as [|f fs]; [done|].
  cbn [writeFields fmap list_fmap]. rewrite concat_comma, writeFields_later.
  rewrite decide_False by (by intros ?). rewrite <-list_fmap_compose.
  by strapp.
Qed.

(** The selection of a struct is the comma-separated join of what each
    field contributes, in declaration order and between braces unless
    inlined: one separator between any two fields, also around a field
    that contributes nothing. *)
Theorem writeQuery_struct_join `{NamingNormalizer} (name : string)
    (fs : list (StructField rtype)) (inline : bool) :
  writeQuery (TStruct name false fs) inline
    = (if inline then "" else "{") +:+
      String.concat "," (writeField <$> fs) +:+
      (if inline then "" else "}").
Proof. by rewrite writeQuery_struct, writeFields_join. Qed.

Lemma writeQuery_wrap `{NamingNormalizer} (ws : list Wrapper) (t : rtype) :
  writeQuery (wrap ws t) false = writeQuery t false.
Proof. induction ws as [|[] ws IH]; simpl; done. Qed.

(** Through any stack of pointers and slices the selection compiler
    reaches the wrapped type with [inline = false], whatever [inline]
    it started with: the selection of [*[]*T] is that of [T]. *)
Theorem writeQuery_wrapped `{NamingNormalizer} (w : Wrapper)
    (ws : list Wrapper) (t : rtype) (inline : bool) :
  writeQuery (wrap (w :: ws) t) inline = writeQuery t false.
Proof.
  destruct w; simpl; apply writeQuery_wrap.
Qed.

(** The selection is empty exactly when the shape is not a struct to
    expand, reached directly or through pointers and slices: a scalar, an
    array, a custom scalar or a wrapped one selects nothing. *)
Theorem writeQuery_empty_iff `{NamingNormalizer} (t : rtype) :
  writeQuery t false = ""
    ↔ ∀ ws name gs, t ≠ wrap ws (TStruct name false gs).
Proof.
  induction t as [k n|e IH|e IH|e IH|n u fs].
  - split; [|done]. intros _ [|[] ws] name gs; done.
  - change (writeQuery (TPtr e) false) with (writeQuery e false).
    rewrite IH. split.
    + intros He [|[] ws] name gs; try done.
      intros [= Heq]. by apply (He ws name gs).
    + intros Ht ws name gs ->. by apply (Ht (WPtr :: ws) name gs).
  - change (writeQuery (TSlice e) false) with (writeQuery e false).
    rewrite IH. split.
    + intros He [|[] ws] name gs; try done.
      intros [= Heq]. by apply (He ws name gs).
    + intros Ht ws name gs ->. by apply (Ht (WSlice :: ws) name gs).
  - split; [|done]. intros _ [|[] ws] name gs; done.
  - rewrite writeQuery_struct. destruct u.
    + split; [|done]. intros _ [|[] ws] name gs; done.
    + split; [done|]. intros Ht. by destruct (Ht [] n fs).
Qed.

Lemma count_app (c : ascii) (s1 s2 : string) :
  count c (s1 +:+ s2) = count c s1 + count c s2.
Proof.
  induction s1 as [|d s1 IH]; [done|].
  rewrite string_app_cons. simpl. rewrite IH. lia.
Qed.

Lemma brace_free_counts (s : string) :
  brace_free s = true → count "{" s = 0 ∧ count "}" s = 0.
Proof.
  unfold brace_free. intros [H1 H2]%andb_prop.
  by apply bool_decide_eq_true in H1, H2.
Qed.

Lemma plain_names_struct `{NamingNormalizer} (name : string) (u : bool)
    (fs : list (StructField rtype)) :
  plain_names (TStruct name u fs) = u || plain_fields fs.
Proof. done. Qed.

Lemma plain_fields_cons `{NamingNormalizer} (f : StructField rtype)
    (fs : list (StructField rtype)) :
  plain_fields (f :: fs)
    = (inlineField f || brace_free (fieldName f)) &&
      plain_names (reflect.Typ f) && plain_fields fs.
Proof. done. Qed.

Lemma writeQuery_balanced `{NamingNormalizer} (t : rtype) :
  ∀ inline, plain_names t = true →
    count "{" (writeQuery t inline) = count "}" (writeQuery t inline).
Proof.
  induction t as [k n|e IH|e IH|e IH|n u fs IH] using rtype_fields_ind;
    intros inline Hplain; try done.
  - by apply IH.
  - by apply IH.
  - rewrite writeQuery_struct. rewrite plain_names_struct in Hplain.
    destruct u; [done|]. simpl in Hplain.
    assert (∀ i, count "{" (writeFields i fs) = count "}" (writeFields i fs))
      as Hfs.
    { induction IH as [|f fs Hf _ IHfs]; intros i; [done|].
      rewrite plain_fields_cons in Hplain.
      apply andb_prop in Hplain as [[Hname Hty]%andb_prop Hrest].
      cbn [writeFields]. unfold writeField. rewrite !count_app.
      rewrite (Hf _ Hty), (IHfs Hrest).
      assert (count "{" (if inlineField f then "" else fieldName f) = 0
              ∧ count "}" (if inlineField f then "" else fieldName f) = 0)
        as [-> ->].
      { destruct (inlineField f); [done|]. by apply brace_free_counts. }
      by destruct (decide (i ≠ 0)). }
    rewrite !count_app, Hfs. by destruct inline.
Qed.

(** When no name token (tag or normalized field name) holds a brace,
    the selection has as many opening as closing braces, inlined or
    not. *)
Theorem writeQuery_braces_balanced `{NamingNormalizer} (t : rtype)
    (inline : bool) (Hplain : plain_names t = true) :
  count "{" (writeQuery t inline) = count "}" (writeQuery t inline).
Proof. by apply writeQuery_balanced. Qed.

Lemma writeQuery_braces_balanced_witness :
  count "{" (@writeQuery ident.normalizer
               (TSlice (Embedding reflect.Int32)) false) = 1 ∧
  count "{" (@writeQuery ident.normalizer
               (TSlice (Embedding reflect.Int32)) false)
    = count "}" (@writeQuery ident.normalizer
                   (TSlice (Embedding reflect.Int32)) false).
Proof.
  split; [by vm_compute|].
  apply (writeQuery_braces_balanced (H := ident.normalizer)).
  by vm_compute.
Defined.

(** A tag that holds a brace unbalances the selection: the condition on
    the name tokens cannot be dropped. *)
Lemma writeQuery_brace_in_tag :
  @writeQuery ident.normalizer
     (TStruct "" false
        [mkStructField "A" false (Some "a{") (Int reflect.Int32)]) false
    = "{a{}".
Proof. by vm_compute. Qed.

(** ** Further properties of the argument compiler *)

Lemma writeArguments_app {V : Type} (variables : gmap string (iface V))
    (keys1 keys2 : list string) :
  writeArguments variables (keys1 ++ keys2)
    = (s1 ← writeArguments variables keys1;
       s2 ← writeArguments variables keys2;
       Some (s1 +:+ s2)).
Proof.
  induction keys1 as [|k keys1 IH]; simpl.
  - by destruct (writeArguments variables keys2).
  - rewrite IH.
    destruct (reflect.TypeOf (variables !!! k)) as [t|]; [simpl|done].
    destruct (writeArguments variables keys1) as [s1|]; [simpl|done].
    destruct (writeArguments variables keys2) as [s2|]; [simpl|done].
    by strapp.
Qed.

Lemma range_keys_nil {V : Type} (variables : gmap string (iface V)) :
  range_keys variables [] ↔ variables = ∅.
Proof.
  unfold range_keys. split.
  - intros Hp%symmetry%Permutation_nil_r.
    apply fmap_nil_inv in Hp. by apply map_to_list_empty_iff.
  - intros ->. by rewrite map_to_list_empty.
Qed.

(** The rendered declaration list is empty exactly for the empty map, so
    testing [len(variables) > 0] and testing the rendered list agree; the
    list of a map that is not empty starts with ["$"]. *)
Theorem queryArguments_empty_iff {V : Type}
    (variables : gmap string (iface V)) (keys : list string) (out : string)
    (Hkeys : range_keys variables keys)
    (Hout : queryArguments_from keys variables = Some out) :
  (out = "" ↔ variables = ∅) ∧
  (variables ≠ ∅ → ∃ rest, out = "$" +:+ rest).
Proof.
  unfold queryArguments_from in Hout.
  destruct (sort_Strings keys) as [|k sorted] eqn:Hsorted.
  - assert (keys = []) as ->.
    { apply Permutation_nil_r. rewrite <-(sort_Strings_Permutation keys).
      by rewrite Hsorted. }
    apply range_keys_nil in Hkeys as ->. simpl in Hout.
    split; [by simplify_eq|done].
  - assert (variables ≠ ∅) as Hne.
    { intros ->. unfold range_keys in Hkeys.
      rewrite map_to_list_empty in Hkeys.
      apply Permutation_nil_r in Hkeys as ->. discriminate Hsorted. }
    simpl in Hout.
    destruct (reflect.TypeOf (variables !!! k)) as [t|]; [simpl in Hout|done].
    destruct (writeArguments variables sorted) as [rest|];
      [simpl in Hout|done].
    injection Hout as <-. split; [split; [done|by intros ?]|].
    intros _. by eexists.
Qed.

Lemma queryArguments_empty_iff_witness :
  ("$a:Int!$b:Boolean" = "" ↔ vars_a_b reflect.Int32 reflect.Bool 123 1 = ∅) ∧
  (vars_a_b reflect.Int32 reflect.Bool 123 1 ≠ ∅ →
     ∃ rest, "$a:Int!$b:Boolean" = "$" +:+ rest).
Proof.
  apply (queryArguments_empty_iff
           (vars_a_b reflect.Int32 reflect.Bool 123 1) ["b"; "a"]).
  - vm_compute. apply perm_swap.
  - vm_compute. reflexivity.
Defined.

(** Every variable of the map is declared in the rendered list, as
    ["$name:Type"] with the token of its value's type resolved as
    required. *)
Theorem queryArguments_declares {V : Type}
    (variables : gmap string (iface V)) (keys : list string) (out : string)
    (k : string) (t : rtype) (v : V)
    (Hkeys : range_keys variables keys)
    (Hout : queryArguments_from keys variables = Some out)
    (Hk : variables !! k = Some (ival t v)) :
  ∃ before after,
    out = before +:+ ("$" +:+ k +:+ ":" +:+ writeArgumentType t true)
                 +:+ after.
Proof.
  unfold queryArguments_from in Hout.
  assert (k ∈ sort_Strings keys) as Hin.
  { rewrite sort_Strings_Permutation, (range_keys_dom variables) by done.
    eauto. }
  apply list_elem_of_split in Hin as (pre & post & Hsplit).
  rewrite Hsplit, writeArguments_app in Hout. simpl in Hout.
  rewrite lookup_total_alt, Hk in Hout. simpl in Hout.
  destruct (writeArguments variables pre) as [before|]; [simpl in Hout|done].
  destruct (writeArguments variables post) as [after|]; [simpl in Hout|done].
  injection Hout as <-. exists before, after. by strapp.
Qed.

Lemma queryArguments_declares_witness :
  ∃ before after,
    "$a:Int!$b:Boolean"
      = before +:+ ("$" +:+ "b" +:+ ":" +:+
                    writeArgumentType (TPtr (Boolean reflect.Bool)) true)
               +:+ after.
Proof.
  apply (queryArguments_declares
           (vars_a_b reflect.Int32 reflect.Bool 123 1) ["b"; "a"] _ "b" _ 1).
  - vm_compute. apply perm_swap.
  - vm_compute. reflexivity.
  - reflexivity.
Defined.

(** ** Further properties of the operations *)

Lemma query_is_Some `{NamingNormalizer} {V : Type} (v : iface V) :
  is_Some (query v) ↔ v ≠ inil.
Proof.
  destruct v as [|t v]; simpl; split; try done;
    first [by intros [? ?]|by eexists].
Qed.

Lemma queryArguments_is_Some {V : Type} (variables : gmap string (iface V)) :
  is_Some (queryArguments variables)
    ↔ ∀ k v, variables !! k = Some v → v ≠ inil.
Proof. apply queryArguments_returns. unfold range_keys. reflexivity. Qed.

Lemma document_is_Some {A B C : Type} (x : option A) (y : option B)
    (f : A → B → C) :
  is_Some (a ← x; b ← y; Some (f a b)) ↔ is_Some x ∧ is_Some y.
Proof.
  destruct x as [a|], y as [b|]; simpl; split;
    try (by intros [? ?]); try (by intros [[? ?] [? ?]]); eauto.
Qed.

(** On data and variables whose types have a finite description (no
    recursive Go type), compiling an operation panics exactly when the
    data is the nil interface or some variable is bound to it; otherwise
    each of the four entry points returns a document. *)
Theorem operations_return_iff `{NamingNormalizer} {V : Type} (name : string)
    (data : iface V) (vars : gmap string (iface V)) :
  (is_Some (Query.Query (Query.mk name data vars))
     ↔ data ≠ inil ∧ ∀ k v, vars !! k = Some v → v ≠ inil) ∧
  (is_Some (Mutation.Query (Mutation.mk name data vars))
     ↔ data ≠ inil ∧ ∀ k v, vars !! k = Some v → v ≠ inil) ∧
  (is_Some (constructQuery data vars)
     ↔ data ≠ inil ∧ ∀ k v, vars !! k = Some v → v ≠ inil) ∧
  (is_Some (constructMutation data vars)
     ↔ data ≠ inil ∧ ∀ k v, vars !! k = Some v → v ≠ inil).
Proof.
  assert (size vars = 0 → ∀ k v, vars !! k = Some v → v ≠ inil) as Hempty.
  { intros ->%map_size_empty_iff k v Hk. by rewrite lookup_empty in Hk. }
  rewrite Query_document, Mutation_document, !document_is_Some.
  rewrite queryArguments_is_Some, query_is_Some.
  split; [tauto|]. split; [tauto|].
  unfold constructQuery, constructMutation.
  split.
  - destruct data as [|t d]; [simpl; split; [by intros [? ?]|by intros [? ?]]|].
    simpl. destruct (decide (0 < size vars)) as [Hv|Hv].
    + rewrite <-queryArguments_is_Some.
      destruct (queryArguments vars); simpl; split; eauto;
        try (by intros [? ?]); by intros [_ [? ?]].
    + split; [|by eexists]. intros _. split; [done|]. apply Hempty. lia.
  - destruct data as [|t d]; [simpl; split; [by intros [? ?]|by intros [? ?]]|].
    simpl. destruct (decide (0 < size vars)) as [Hv|Hv].
    + rewrite <-queryArguments_is_Some.
      destruct (queryArguments vars); simpl; split; eauto;
        try (by intros [? ?]); by intros [_ [? ?]].
    + split; [|by eexists]. intros _. split; [done|]. apply Hempty. lia.
Qed.

(** ** The client *)

(** The eight ways through [Run], with the step that decides each. *)
Ltac run_inv H :=
  revert H; unfold Run;
  destruct (op_Query _) as [doc|] eqn:Hdoc; [|discriminate]; simpl;
  destruct (json_Encode _) as [buf|e] eqn:Henc;
  [destruct (http_NewRequest _ _ _) as [req|e] eqn:Hreq;
   [destruct (ctxhttp_Do _ _) as [resp|e] eqn:Hdo;
    [destruct (decide (http.StatusCode resp ≠ http.StatusOK)) as [Hst|Hst];
     [|destruct (json_Decode _) as [out|e] eqn:Hdec;
       [destruct (Data out) as [data|] eqn:Hdata;
        [destruct (UnmarshalGraphQL data _) as [filled [e|]] eqn:Hfill|];
        simpl;
        try (destruct (decide (0 < length (Errors out))) as [Herrs|Herrs])
       |]]
    |]
   |]
  |];
  intros H; injection H as H; subst; simpl in *.

(** The [errors] that [Run] returns are never empty, so calling [Error]
    on them does not panic: it gives the message of the first error. *)
Theorem Run_errors_not_empty `{Transport V} (c : Client V) (op : Operation V)
    (r : outcome V) (es : errors)
    (Hrun : Run c op = Some r) (Herr : err r = Some (GraphQLErrors es)) :
  ∃ e es', es = e :: es' ∧ errors_Error es = Some (Message e).
Proof.
  run_inv Hrun; simplify_eq;
    (destruct (Errors out) as [|e' es']; [simpl in *; lia|]);
    by exists e', es'.
Qed.

Lemma Run_errors_not_empty_witness :
  ∃ e es', [mkError "boom" []] = e :: es'
           ∧ errors_Error [mkError "boom" []] = Some (Message e).
Proof.
  eapply (Run_errors_not_empty (H := sample_transport) sample_client
            (Static_Operation (Static.mk "" "{a}" (ival bare_string 0) ∅) None)).
  - reflexivity.
  - reflexivity.
Defined.

(** [Run] returns nil exactly when every step succeeded: the request was
    encoded, built and answered with status 200, the answer decoded, its
    data (if any) unmarshalled without error, and its error list
    empty. *)
Theorem Run_nil_iff `{Transport V} (c : Client V) (op : Operation V)
    (r : outcome V) (Hrun : Run c op = Some r) :
  err r = None ↔
  ∃ doc buf req resp out,
    op_Query op = Some doc ∧
    json_Encode (mkrequest doc (op_Variables op) (op_OperationName op))
      = Ok buf ∧
    http_NewRequest http.MethodPost (url c) buf = Ok req ∧
    ctxhttp_Do (httpClient c)
      (op_ModifyRequest op
         (http.Header_Set "Content-Type" "application/json" req)) = Ok resp ∧
    http.StatusCode resp = 200 ∧
    json_Decode (http.ResponseBody resp) = Ok out ∧
    Errors out = [] ∧
    match Data out with
    | Some data => UnmarshalGraphQL data (op_ResponsePtr op) = (target r, None)
    | None => target r = op_ResponsePtr op
    end.
Proof.
  split.
  - intros Hnil. run_inv Hrun; try discriminate Hnil;
      eexists _, _, _, _, _;
      (split; [done|]); (split; [done|]); (split; [done|]);
      (split; [done|]); (split; [unfold http.StatusOK in *; lia|]);
      (split; [done|]); rewrite Hdata;
      (split; [destruct (Errors out); [done|simpl in *; lia]|done]).
  - intros (doc & buf & req & resp & out & Hdoc & Henc & Hreq & Hdo & Hst
            & Hdec & Herrs & Hdata).
    unfold Run in Hrun. rewrite Hdoc in Hrun. simpl in Hrun.
    rewrite Henc, Hreq, Hdo, Hdec in Hrun.
    rewrite decide_False in Hrun by (unfold http.StatusOK; lia).
    rewrite Herrs in Hrun. simpl in Hrun.
    destruct (Data out) as [data|].
    + rewrite Hdata in Hrun. simpl in Hrun.
      injection Hrun as Hr. by rewrite <-Hr.
    + simpl in Hrun. injection Hrun as Hr. by rewrite <-Hr.
Qed.

Lemma Run_nil_iff_witness :
  ∃ r, Run (H := quiet_transport) quiet_client
         (Static_Operation (Static.mk "" "{a}" (ival bare_string 0) ∅) None)
         = Some r
       ∧ err r = None ∧ target r = ival bare_string 3.
Proof.
  eexists. split; [reflexivity|]. split; [|reflexivity].
  apply (Run_nil_iff (H := quiet_transport) quiet_client
           (Static_Operation (Static.mk "" "{a}" (ival bare_string 0) ∅) None)
           _ eq_refl).
  eexists _, _, _, _, _. repeat split; reflexivity.
Defined.

Lemma Run_sent `{Transport V} (c : Client V) (op : Operation V)
    (r : outcome V) :
  Run c op = Some r →
  ∃ doc, op_Query op = Some doc ∧
    length (sent r) ≤ 1 ∧
    (∀ req, req ∈ sent r →
       ∃ buf base,
         json_Encode (mkrequest doc (op_Variables op) (op_OperationName op))
           = Ok buf ∧
         http_NewRequest http.MethodPost (url c) buf = Ok base ∧
         req = op_ModifyRequest op
                 (http.Header_Set "Content-Type" "application/json" base)) ∧
    (sent r = [] →
       ∃ e, err r = Some (LibraryError e) ∧
         (json_Encode (mkrequest doc (op_Variables op) (op_OperationName op))
            = Err e
          ∨ ∃ buf,
              json_Encode
                (mkrequest doc (op_Variables op) (op_OperationName op))
                = Ok buf ∧
              http_NewRequest http.MethodPost (url c) buf = Err e)).
Proof.
  intros Hrun.
  run_inv Hrun; exists doc; (split; [done|]); (split; [lia|]);
    (split; [|first [by intros [=]
                    |intros _; eexists; split; [done|]; by left
                    |intros _; eexists; split; [done|]; right; by eexists]]);
    intros req' Hin; try (by apply elem_of_nil in Hin);
    apply list_elem_of_singleton in Hin as ->; by eexists _, _.
Qed.

(** [Run] hands at most one request to the HTTP client: the request
    built from the encoded operation, with the content type set and then
    the operation's handler applied, once.  When it hands over none, the
    error returned is the one that the encoder gave or, the operation
    encoded, the one that [http.NewRequest] gave. *)
Theorem Run_sends_once `{Transport V} (c : Client V) (op : Operation V)
    (r : outcome V) (Hrun : Run c op = Some r) :
  length (sent r) ≤ 1 ∧
  (∀ req, req ∈ sent r →
     ∃ doc buf base,
       op_Query op = Some doc ∧
       json_Encode (mkrequest doc (op_Variables op) (op_OperationName op))
         = Ok buf ∧
       http_NewRequest http.MethodPost (url c) buf = Ok base ∧
       req = op_ModifyRequest op
               (http.Header_Set "Content-Type" "application/json" base)) ∧
  (sent r = [] →
     ∃ doc e,
       op_Query op = Some doc ∧ err r = Some (LibraryError e) ∧
       (json_Encode (mkrequest doc (op_Variables op) (op_OperationName op))
          = Err e
        ∨ ∃ buf,
            json_Encode (mkrequest doc (op_Variables op) (op_OperationName op))
              = Ok buf ∧
            http_NewRequest http.MethodPost (url c) buf = Err e)).
Proof.
  destruct (Run_sent c op r Hrun) as (doc & Hdoc & Hlen & Hsent & Hnone).
  split; [done|]. split.
  - intros req Hin. destruct (Hsent req Hin) as (buf & base & ? & ? & ?).
    by exists doc, buf, base.
  - intros Hno. destruct (Hnone Hno) as (e & He & Hwhy). by exists doc, e.
Qed.

Lemma Run_sends_once_witness :
  length (sent (mkOutcome
     [http.mkRequest "POST" "http://localhost/graphql"
        {[ "Content-Type" := ["application/json"] ]} "{a}"]
     (ival bare_string 3) (Some (GraphQLErrors [mkError "boom" []])))) ≤ 1.
Proof.
  exact (proj1 (Run_sends_once (H := sample_transport) sample_client
    (Static_Operation (Static.mk "" "{a}" (ival bare_string 0) ∅) None)
    _ eq_refl)).
Defined.

(** The value behind the response pointer is touched only by
    unmarshalling the data of an answer with status 200: on every other
    way through [Run] it is left as it was. *)
Theorem Run_target_changed `{Transport V} (c : Client V) (op : Operation V)
    (r : outcome V) (Hrun : Run c op = Some r)
    (Hchanged : target r ≠ op_ResponsePtr op) :
  ∃ req resp out data,
    sent r = [req] ∧
    ctxhttp_Do (httpClient c) req = Ok resp ∧
    http.StatusCode resp = 200 ∧
    json_Decode (http.ResponseBody resp) = Ok out ∧
    Data out = Some data ∧
    target r = (UnmarshalGraphQL data (op_ResponsePtr op)).1.
Proof.
  run_inv Hrun; try done;
    eexists _, _, _, _; (split; [done|]); (split; [done|]);
    (split; [unfold http.StatusOK in *; lia|]); (split; [done|]);
    (split; [done|]); by rewrite Hfill.
Qed.

Lemma Run_target_changed_witness :
  ∃ req resp out data,
    [http.mkRequest "POST" "http://localhost/graphql"
       {[ "Content-Type" := ["application/json"] ]} "{a}"] = [req] ∧
    ctxhttp_Do (Transport := sample_transport)
      (httpClient sample_client) req = Ok resp ∧
    http.StatusCode resp = 200 ∧
    json_Decode (Transport := sample_transport) (http.ResponseBody resp)
      = Ok out ∧
    Data out = Some data ∧
    ival bare_string 3
      = (UnmarshalGraphQL (Transport := sample_transport) data
           (ival bare_string 0)).1.
Proof.
  apply (Run_target_changed (H := sample_transport) sample_client
    (Static_Operation (Static.mk "" "{a}" (ival bare_string 0) ∅) None)
    _ eq_refl).
  simpl. intros [= Heq]. 
Defined.

(** When [Run] returns the errors of the response, the data that came
    with them, if any, has been unmarshalled behind the response pointer
    without error first: an unmarshalling error takes precedence, and
    partial data is kept. *)
Theorem Run_errors_after_data `{Transport V} (c : Client V)
    (op : Operation V) (r : outcome V) (es : errors)
    (Hrun : Run c op = Some r) (Herr : err r = Some (GraphQLErrors es)) :
  ∃ req resp out,
    sent r = [req] ∧
    ctxhttp_Do (httpClient c) req = Ok resp ∧
    json_Decode (http.ResponseBody resp) = Ok out ∧
    Errors out = es ∧
    match Data out with
    | Some data => UnmarshalGraphQL data (op_ResponsePtr op) = (target r, None)
    | None => target r = op_ResponsePtr op
    end.
Proof.
  run_inv Hrun; simplify_eq; eexists _, _, _;
    (split; [done|]); (split; [done|]); (split; [done|]);
    (split; [done|]); by rewrite Hdata.
Qed.

Lemma Run_errors_after_data_witness :
  ∃ req resp out,
    [http.mkRequest "POST" "http://localhost/graphql"
       {[ "Content-Type" := ["application/json"] ]} "{a}"] = [req] ∧
    ctxhttp_Do (Transport := sample_transport)
      (httpClient sample_client) req = Ok resp ∧
    json_Decode (Transport := sample_transport) (http.ResponseBody resp)
      = Ok out ∧
    Errors out = [mkError "boom" []] ∧
    match Data out with
    | Some data =>
        UnmarshalGraphQL (Transport := sample_transport) data
          (ival bare_string 0) = (ival bare_string 3, None)
    | None => ival bare_string 3 = ival bare_string 0
    end.
Proof.
  exact (Run_errors_after_data (H := sample_transport) sample_client
    (Static_Operation (Static.mk "" "{a}" (ival bare_string 0) ∅) None)
    _ _ eq_refl eq_refl).
Defined.







Lemma Run_is_Some `{Transport V} (c : Client V) (op : Operation V) :
  is_Some (Run c op) ↔ is_Some (op_Query op).
Proof.
  unfold Run. destruct (op_Query op) as [doc|]; simpl; split;
    try (by intros [? ?]); by eexists.
Qed.

(** On a response shape and variables whose types have a finite
    description (no recursive Go type), [Client.Query] and
    [Client.Mutate] return, rather than panic before anything is encoded
    or sent, exactly when neither the response shape nor the value of any
    variable is the nil interface; the transport has no say in it. *)
Theorem Client_returns_iff `{NamingNormalizer} `{Transport V}
    (c : Client V) (v : iface V) (variables : gmap string (iface V)) :
  (is_Some (Client_Query c v variables)
     ↔ v ≠ inil ∧ ∀ k x, variables !! k = Some x → x ≠ inil) ∧
  (is_Some (Client_Mutate c v variables)
     ↔ v ≠ inil ∧ ∀ k x, variables !! k = Some x → x ≠ inil).
Proof.
  unfold Client_Query, Client_Mutate. rewrite !Run_is_Some. simpl.
  rewrite Query_document, Mutation_document, !document_is_Some.
  rewrite queryArguments_is_Some, query_is_Some.
  split; tauto.
Qed.
